(** * Databricks provider: URL rewriting and provider construction

    A shallow embedding of [src/databricks-provider.ts].

    JavaScript strings are sequences of UTF-16 code units; they are
    modelled as lists of numbers, so that the string operations the
    module relies on ([includes], [replace] with a string pattern,
    [replace] with the regular expression [/\/invocations\/?$/]) are
    defined on every string the program can receive, not only on
    ASCII ones. *)

From Stdlib Require Import NArith List Ascii String Lia Bool.
From stdpp Require Import gmap.

Import ListNotations.
Local Open Scope list_scope.

(** ** JavaScript strings *)

Module JsString.

Definition code_unit : Type := N.
Definition t : Type := list code_unit.

(** A string literal of the source, as its code units. *)
Definition lit (s : String.string) : t :=
  List.map N_of_ascii (list_ascii_of_string s).

(** [s.startsWith(pat)]: [pat] is read off the front of [s]. *)
Fixpoint starts_with (pat s : t) : bool :=
  match pat, s with
  | [], _ => true
  | _ :: _, [] => false
  | p :: pat', c :: s' => N.eqb p c && starts_with pat' s'
  end.

(** [StringIndexOf(s, pat, 0)] of ECMAScript: the least index at which
    [pat] occurs in [s]; [None] stands for the result -1. *)
Fixpoint indexOf (pat s : t) : option nat :=
  if starts_with pat s then Some 0
  else match s with
       | [] => None
       | _ :: s' => option_map S (indexOf pat s')
       end.

(** [s.includes(pat)]: the index of [pat] in [s] is not -1. *)
Definition includes (pat s : t) : bool :=
  match indexOf pat s with
  | Some _ => true
  | None => false
  end.

(** [s.replace(pat, rep)] for a string pattern [pat] and a replacement
    [rep] without [$] patterns: the first occurrence of [pat] is cut out
    and [rep] put in its place; without an occurrence [s] is returned. *)
Definition replace (pat rep s : t) : t :=
  match indexOf pat s with
  | Some pos => firstn pos s ++ rep ++ skipn (pos + List.length pat) s
  | None => s
  end.

(** The number of positions of [s] at which [pat] occurs. *)
Fixpoint occurrences (pat s : t) : nat :=
  (if starts_with pat s then 1 else 0) +
  match s with
  | [] => 0
  | _ :: s' => occurrences pat s'
  end.

(** Two strings differ at an index that both have: whatever follows
    them, neither can be read off the front of the other. *)
Fixpoint mismatch (q r : t) : bool :=
  match q, r with
  | x :: q', y :: r' => negb (N.eqb x y) || mismatch q' r'
  | _, _ => false
  end.

(** The non-empty suffixes of a string. *)
Fixpoint tails (s : t) : list t :=
  match s with
  | [] => []
  | _ :: s' => s :: tails s'
  end.

(** No occurrence of [pat] can overlap a copy of [rep] laid into a
    string: [pat] cannot start inside [rep], and cannot run into it. *)
Definition apart (pat rep : t) : bool :=
  forallb (fun q => mismatch q rep) (tails pat)
  && forallb (fun q => mismatch pat q) (tails rep).

(** [pat] has no proper overlap with itself. *)
Definition unbordered (pat : t) : bool :=
  forallb (fun q => mismatch pat q) (tails (tl pat)).

(** [s] ends in [suf]; used to decide the side conditions of the
    statements about the base URL. *)
Definition ends_with (suf s : t) : bool :=
  starts_with (rev suf) (rev s).

(** [ToBoolean] on a string: only the empty string is falsy. *)
Definition truthy (s : t) : bool :=
  match s with
  | [] => false
  | _ :: _ => true
  end.

End JsString.

Abbreviation jsstring := JsString.t.

(** ** Regular expressions

    The fragment of ECMAScript regular expressions that the module uses:
    a sequence of terms, each a literal character, a greedy optional
    character [c?], or the assertion [$] (end of input: the expression
    carries no [m] flag). *)

Module Regex.

Inductive term : Type :=
| Char (c : JsString.code_unit)
| Opt (c : JsString.code_unit)
| End.

Definition t : Type := list term.

(** The backtracking matcher, anchored at the front of [s]; the result
    is what is left of [s] behind the match. A greedy [c?] first tries
    to take the character and falls back on skipping it. *)
Fixpoint match_here (re : t) (s : jsstring) : option jsstring :=
  match re with
  | [] => Some s
  | Char c :: re' =>
      match s with
      | c' :: s' => if N.eqb c c' then match_here re' s' else None
      | [] => None
      end
  | Opt c :: re' =>
      match s with
      | c' :: s' =>
          if N.eqb c c' then
            match match_here re' s' with
            | Some rest => Some rest
            | None => match_here re' s
            end
          else match_here re' s
      | [] => match_here re' s
      end
  | End :: re' =>
      match s with
      | [] => match_here re' s
      | _ :: _ => None
      end
  end.

(** [s.replace(re, rep)] for an expression without the [g] and [y]
    flags and a replacement without [$] patterns: the match is tried at
    index 0, 1, ..., length of [s]; the first one found is replaced. *)
Fixpoint replace (re : t) (rep s : jsstring) : jsstring :=
  match match_here re s with
  | Some rest => rep ++ rest
  | None =>
      match s with
      | [] => []
      | c :: s' => c :: replace re rep s'
      end
  end.

Definition literal (s : jsstring) : t := List.map Char s.

End Regex.

(** ** The settings object of the external client factory *)

Module OpenAICompatible.

(** The object literal handed to [createOpenAICompatible]; [F] is the
    type of the [fetch] callable. *)
Record Settings (F : Type) : Type := {
  name : jsstring;
  baseURL : jsstring;
  apiKey : jsstring;
  headers : option (gmap jsstring jsstring);
  fetch : F
}.

Arguments name {F} _.
Arguments baseURL {F} _.
Arguments apiKey {F} _.
Arguments headers {F} _.
Arguments fetch {F} _.

End OpenAICompatible.

(** ** String constants of the source *)

Definition chat_completions : jsstring := JsString.lit "/chat/completions".

Definition invocations : jsstring := JsString.lit "/invocations".

(** The regular expression [/\/invocations\/?$/]. *)
Definition trailing_invocations : Regex.t :=
  Regex.literal (JsString.lit "/invocations")
    ++ [Regex.Opt (N_of_ascii "/"); Regex.End].

Definition databricks : jsstring := JsString.lit "databricks".

(** The names of the two environment variables. *)
Definition API_KEY_var : jsstring := JsString.lit "API_KEY".
Definition BASE_URL_var : jsstring := JsString.lit "BASE_URL".

(** The messages of the two errors of lines 112 and 116. *)
Definition API_KEY_required : jsstring :=
  JsString.lit "API_KEY environment variable is required".

Definition BASE_URL_required : jsstring :=
  JsString.lit "BASE_URL environment variable is required".

(** ** The URL transform of the fetch wrapper (lines 50-52) *)

Definition rewriteURL (url : jsstring) : jsstring :=
  if JsString.includes chat_completions url
  then JsString.replace chat_completions invocations url
  else url.

(** ** The base URL clean-up of the provider factory (line 81) *)

Definition cleanBaseURL (baseURL : jsstring) : jsstring :=
  Regex.replace trailing_invocations [] baseURL.

(** ** The program

    The module has two effects: calls of the platform's [fetch] and the
    call of the external factory [createOpenAICompatible]. Both are
    recorded in a trace that is threaded through the code, next to the
    process environment that [createDatabricksProviderFromEnv] reads.

    The payloads the module never looks into stay abstract: the options
    bag [RequestInit] (method, headers, body, signal, ...), the
    [Response] of a fetch, the [Reason] a fetch rejects with and the
    [Provider] the external factory returns. *)

Section Program.

Context {RequestInit Response Reason Provider : Type}.

(** A [URL] object; [toString()] returns its [href]. *)
Record URL : Type := { href : jsstring }.

Definition toString (u : URL) : jsstring := href u.

(** A [Request] object: it carries its own method, headers and body
    next to the URL. *)
Record Request : Type := {
  url : jsstring;
  method : jsstring;
  requestHeaders : gmap jsstring jsstring;
  body : option jsstring
}.

(** [RequestInfo | URL], the type of the first argument of [fetch]. *)
Inductive RequestInfo : Type :=
| OfString (s : jsstring)
| OfURL (u : URL)
| OfRequest (r : Request).

Inductive event : Type :=
| Fetch (target : jsstring) (init : option RequestInit)
| CreateOpenAICompatible
    (name baseURL apiKey : jsstring)
    (headers : option (gmap jsstring jsstring)).

Record World : Type := {
  env : gmap jsstring jsstring;
  trace : list event
}.

Definition record (e : event) (w : World) : World :=
  {| env := env w; trace := trace w ++ [e] |}.

(** The outcome of a synchronous call: a value or a thrown [Error]. *)
Inductive completion (A : Type) : Type :=
| Return (a : A)
| Throw (message : jsstring).

(** The outcome of a promise. *)
Inductive settled (A : Type) : Type :=
| Fulfilled (a : A)
| Rejected (reason : Reason).

#[local] Arguments Return {A} _.
#[local] Arguments Throw {A} _.
#[local] Arguments Fulfilled {A} _.
#[local] Arguments Rejected {A} _.

Definition Sync (A : Type) : Type := World -> completion A * World.
Definition Async (A : Type) : Type := World -> settled A * World.

Definition throw {A} (message : jsstring) : Sync A :=
  fun w => (Throw message, w).

Definition bind {A B} (m : Sync A) (k : A -> Sync B) : Sync B :=
  fun w =>
    match m w with
    | (Return a, w') => k a w'
    | (Throw message, w') => (Throw message, w')
    end.

(** [process.env.X] *)
Definition getenv (x : jsstring) : Sync (option jsstring) :=
  fun w => (Return (env w !! x), w).

(** The network behind the platform's [fetch]: how a call settles may
    depend on everything that happened before it. *)
Variable network :
  list event -> jsstring -> option RequestInit -> settled Response.

(** The platform's [fetch], called with a string target. *)
Definition fetch (target : jsstring) (init : option RequestInit)
  : Async Response :=
  fun w => (network (trace w) target init, record (Fetch target init) w).

Definition FetchFunction : Type :=
  RequestInfo -> option RequestInit -> Async Response.

(** Lines 40-47: the URL string of the first argument. *)
Definition urlOf (input : RequestInfo) : jsstring :=
  match input with
  | OfString s => s
  | OfURL u => toString u
  | OfRequest r => url r
  end.

(** Lines 37-56. *)
Definition createDatabricksFetch (_ : unit) : FetchFunction :=
  fun input init =>
    let url := urlOf input in
    let url := rewriteURL url in
    fetch url init.

Record DatabricksProviderConfig : Type := {
  baseURL : jsstring;
  apiKey : jsstring;
  headers : option (gmap jsstring jsstring);
  name : option jsstring
}.

(** [a || b] where [a] is a string or [undefined]. *)
Definition or_else (a : option jsstring) (b : jsstring) : jsstring :=
  match a with
  | Some s => if JsString.truthy s then s else b
  | None => b
  end.

(** What the external factory makes of its settings. *)
Variable openAICompatible :
  OpenAICompatible.Settings FetchFunction -> Provider.

(** The call of the external factory. *)
Definition createOpenAICompatible
    (settings : OpenAICompatible.Settings FetchFunction) : Sync Provider :=
  fun w =>
    (Return (openAICompatible settings),
     record (CreateOpenAICompatible
               (OpenAICompatible.name settings)
               (OpenAICompatible.baseURL settings)
               (OpenAICompatible.apiKey settings)
               (OpenAICompatible.headers settings)) w).

(** The object literal of lines 84-90. *)
Definition providerSettings (config : DatabricksProviderConfig)
  : OpenAICompatible.Settings FetchFunction :=
  let cleanBaseURL := cleanBaseURL (baseURL config) in
  {| OpenAICompatible.name := or_else (name config) databricks;
     OpenAICompatible.baseURL := cleanBaseURL;
     OpenAICompatible.apiKey := apiKey config;
     OpenAICompatible.headers := headers config;
     OpenAICompatible.fetch := createDatabricksFetch tt |}.

(** Lines 79-91. *)
Definition createDatabricksProvider (config : DatabricksProviderConfig)
  : Sync Provider :=
  createOpenAICompatible (providerSettings config).

(** [!x] where [x] is a string or [undefined]; in the branch where it is
    false, [x] is a string. *)
Definition present (x : option jsstring) : option jsstring :=
  match x with
  | Some s => if JsString.truthy s then Some s else None
  | None => None
  end.

(** Lines 107-124. *)
Definition createDatabricksProviderFromEnv (name : option jsstring)
  : Sync Provider :=
  bind (getenv API_KEY_var) (fun API_KEY =>
  bind (getenv BASE_URL_var) (fun BASE_URL =>
    match present API_KEY with
    | None => throw API_KEY_required
    | Some API_KEY =>
        match present BASE_URL with
        | None => throw BASE_URL_required
        | Some BASE_URL =>
            createDatabricksProvider
              {| baseURL := BASE_URL;
                 apiKey := API_KEY;
                 headers := None;
                 name := name |}
        end
    end)).

End Program.

Arguments Return {A} _.
Arguments Throw {A} _.
Arguments Fulfilled {Reason A} _.
Arguments Rejected {Reason A} _.

(** ** A concrete instance

    A network that refuses every connection to the host [down] and
    answers 200 otherwise, an external factory that keeps the settings it
    is given, and three process environments. *)

Module Sample.

Definition RequestInit : Type := jsstring.
Definition Response : Type := nat.
Definition Reason : Type := jsstring.
Definition Provider : Type :=
  OpenAICompatible.Settings (@FetchFunction RequestInit Response Reason).

Definition network (_ : list (@event RequestInit)) (target : jsstring)
           (_ : option RequestInit) : @settled Reason Response :=
  if JsString.starts_with (JsString.lit "https://down/") target
  then Rejected (JsString.lit "ECONNREFUSED")
  else Fulfilled 200.

Definition openAICompatible (settings : Provider) : Provider := settings.

Definition endpoint : jsstring :=
  JsString.lit "https://host/serving-endpoints/m".

Definition options : option RequestInit := Some (JsString.lit "POST").

(** No variable set. *)
Definition bare : @World RequestInit :=
  {| env := ∅; trace := [] |}.

(** Only [API_KEY] set. *)
Definition keyed : @World RequestInit :=
  {| env := {[ API_KEY_var := JsString.lit "dapi-0123" ]}; trace := [] |}.

(** Both variables set. *)
Definition configured : @World RequestInit :=
  {| env := <[ BASE_URL_var := endpoint ++ invocations ]>
              {[ API_KEY_var := JsString.lit "dapi-0123" ]};
     trace := [] |}.

(** A [Request] that carries a method, a header and a body of its
    own, and one to the same URL that carries none. *)
Definition chat_request : Request :=
  {| url := endpoint ++ chat_completions;
     method := JsString.lit "POST";
     requestHeaders :=
       {[ JsString.lit "content-type" := JsString.lit "application/json" ]};
     body := Some (JsString.lit "{}") |}.

Definition plain_request : Request :=
  {| url := endpoint ++ chat_completions;
     method := JsString.lit "GET";
     requestHeaders := ∅;
     body := None |}.

Definition config (name : option jsstring) : DatabricksProviderConfig :=
  {| baseURL := endpoint; apiKey := JsString.lit "dapi-0123";
     headers := None; name := name |}.

End Sample.

(** * Properties of the string operations *)

Module JsStringFacts.

Import JsString.

Lemma starts_with_app (pat post : t) : starts_with pat (pat ++ post) = true.
Proof.
  induction pat as [|p pat IH]; simpl; [reflexivity|].
  now rewrite N.eqb_refl, IH.
Qed.

Lemma starts_with_inv (pat s : t) :
  starts_with pat s = true -> s = pat ++ skipn (List.length pat) s.
Proof.
  revert s; induction pat as [|p pat IH]; intros [|c s]; simpl;
    try reflexivity; try discriminate.
  intros H. apply andb_true_iff in H as [Hc Hs].
  apply N.eqb_eq in Hc. subst c. f_equal. now apply IH.
Qed.

Lemma starts_with_spec (pat s : t) :
  starts_with pat s = true <-> exists post, s = pat ++ post.
Proof.
  split.
  - intros H. eexists. now apply starts_with_inv.
  - intros [post ->]. apply starts_with_app.
Qed.

Lemma indexOf_here (pat s : t) :
  starts_with pat s = true -> indexOf pat s = Some 0.
Proof. intros H. destruct s; simpl; now rewrite H. Qed.

Lemma indexOf_later (pat : t) (c : code_unit) (s : t) :
  starts_with pat (c :: s) = false ->
  indexOf pat (c :: s) = option_map S (indexOf pat s).
Proof. intros H. cbn [indexOf]. now rewrite H. Qed.

(** The index found is an occurrence, and the first one. *)
Lemma indexOf_Some (pat s : t) (pos : nat) :
  indexOf pat s = Some pos ->
  s = firstn pos s ++ pat ++ skipn (pos + List.length pat) s /\
  List.length (firstn pos s) = pos /\
  (forall a b, s = a ++ pat ++ b -> pos <= List.length a).
Proof.
  revert pos; induction s as [|c s IH]; intros pos.
  - simpl. destruct (starts_with pat []) eqn:E; [|discriminate].
    intros [= <-]. split; [|split].
    + simpl. now apply starts_with_inv.
    + reflexivity.
    + intros; lia.
  - destruct (starts_with pat (c :: s)) eqn:E.
    + rewrite (indexOf_here _ _ E). intros [= <-]. split; [|split].
      * simpl firstn. simpl "++" at 1. now apply starts_with_inv.
      * reflexivity.
      * intros; lia.
    + rewrite (indexOf_later _ _ _ E).
      destruct (indexOf pat s) as [pos'|] eqn:E'; [|discriminate].
      intros [= <-]. destruct (IH pos' eq_refl) as (Hs & Hlen & Hmin).
      split; [|split].
      * simpl. now f_equal.
      * simpl. now f_equal.
      * intros [|a0 a] b Hab.
        -- simpl in Hab. rewrite Hab, starts_with_app in E. discriminate.
        -- simpl in Hab. injection Hab as _ Hab. simpl.
           apply le_n_S. now apply (Hmin a b).
Qed.

Lemma indexOf_None (pat s : t) :
  indexOf pat s = None -> forall a b, s <> a ++ pat ++ b.
Proof.
  induction s as [|c s IH]; intros H a b Hab.
  - simpl in H. destruct (starts_with pat []) eqn:E; [discriminate|].
    destruct a; [|discriminate]. simpl in Hab.
    rewrite Hab, starts_with_app in E. discriminate.
  - destruct (starts_with pat (c :: s)) eqn:E.
    + rewrite (indexOf_here _ _ E) in H. discriminate.
    + rewrite (indexOf_later _ _ _ E) in H.
      destruct (indexOf pat s) eqn:E'; [discriminate|].
      destruct a as [|a0 a]; simpl in Hab.
      * rewrite Hab, starts_with_app in E. discriminate.
      * injection Hab as _ Hab. now apply (IH eq_refl a b).
Qed.

(** [includes] decides the substring relation. *)
Lemma includes_spec (pat s : t) :
  includes pat s = true <-> exists a b, s = a ++ pat ++ b.
Proof.
  unfold includes. destruct (indexOf pat s) as [pos|] eqn:E.
  - split; [intros _|reflexivity].
    destruct (indexOf_Some _ _ _ E) as (Hs & _). eauto.
  - split; [discriminate|]. intros (a & b & Hab).
    now destruct (indexOf_None _ _ E a b).
Qed.

Lemma replace_absent (pat rep s : t) :
  includes pat s = false -> replace pat rep s = s.
Proof.
  unfold includes, replace. now destruct (indexOf pat s).
Qed.

(** [replace] on a string that holds the pattern: the decomposition at
    the first occurrence, with the pattern exchanged. *)
Lemma replace_first (pat rep s : t) :
  includes pat s = true ->
  exists pre post,
    s = pre ++ pat ++ post /\
    (forall a b, s = a ++ pat ++ b -> List.length pre <= List.length a) /\
    replace pat rep s = pre ++ rep ++ post.
Proof.
  unfold includes, replace.
  destruct (indexOf pat s) as [pos|] eqn:E; [intros _|discriminate].
  destruct (indexOf_Some _ _ _ E) as (Hs & Hlen & Hmin).
  exists (firstn pos s), (skipn (pos + List.length pat) s).
  split; [exact Hs|split; [|reflexivity]].
  rewrite Hlen. exact Hmin.
Qed.

(** ** Counting occurrences across a replacement *)

Lemma mismatch_starts_with (q r post : t) :
  mismatch q r = true -> starts_with q (r ++ post) = false.
Proof.
  revert r; induction q as [|x q IH]; intros [|y r]; simpl;
    try discriminate.
  intros H. destruct (N.eqb x y); simpl in *; [now apply IH|reflexivity].
Qed.

Lemma replace_here (pat rep s : t) :
  starts_with pat s = true ->
  replace pat rep s = rep ++ skipn (List.length pat) s.
Proof.
  intros H. unfold replace. now rewrite (indexOf_here _ _ H).
Qed.

Lemma replace_later (pat rep : t) (c : code_unit) (s : t) :
  starts_with pat (c :: s) = false ->
  replace pat rep (c :: s) = c :: replace pat rep s.
Proof.
  intros H. unfold replace. rewrite (indexOf_later _ _ _ H).
  now destruct (indexOf pat s).
Qed.

Lemma replace_nil (pat rep : t) :
  starts_with pat [] = false -> replace pat rep [] = [].
Proof. intros H. unfold replace. simpl. now rewrite H. Qed.

(** A string that can be read off the front of the replaced string
    without touching [rep] was at the front before. *)
Lemma starts_with_replace (pat rep p : t) :
  forallb (fun q => mismatch q rep) (tails p) = true ->
  forall s, starts_with p (replace pat rep s) = true ->
            starts_with p s = true.
Proof.
  induction p as [|x p IH]; [reflexivity|].
  intros Hp s. cbn [tails forallb] in Hp.
  apply andb_true_iff in Hp as [Hx Hp].
  destruct (starts_with pat s) eqn:E.
  - rewrite (replace_here _ _ _ E).
    now rewrite (mismatch_starts_with _ _ _ Hx).
  - destruct s as [|c s].
    + now rewrite (replace_nil _ _ E).
    + rewrite (replace_later _ _ _ _ E). simpl.
      intros H. apply andb_true_iff in H as [Hc Hs].
      rewrite Hc. simpl. now apply (IH Hp).
Qed.

(** Occurrences cannot start inside a stretch they mismatch with. *)
Lemma occurrences_skip (pat r post : t) :
  forallb (fun q => mismatch pat q) (tails r) = true ->
  occurrences pat (r ++ post) = occurrences pat post.
Proof.
  induction r as [|y r IH]; [reflexivity|].
  intros H. cbn [tails forallb] in H.
  apply andb_true_iff in H as [Hy Hr].
  change ((y :: r) ++ post) with (y :: (r ++ post)).
  cbn [occurrences].
  change (y :: (r ++ post)) with ((y :: r) ++ post).
  rewrite (mismatch_starts_with _ _ _ Hy). simpl. now apply IH.
Qed.

(** Replacing the first occurrence takes exactly one occurrence away,
    when the pattern overlaps neither itself nor the replacement. *)
Lemma occurrences_replace (pat rep : t) :
  pat <> [] -> apart pat rep = true -> unbordered pat = true ->
  forall s, occurrences pat (replace pat rep s) = pred (occurrences pat s).
Proof.
  intros Hne Hap Hun. unfold apart in Hap.
  apply andb_true_iff in Hap as [Hin Hout].
  induction s as [|c s IH].
  - destruct (starts_with pat []) eqn:E.
    + destruct pat; [congruence|discriminate].
    + rewrite (replace_nil _ _ E). simpl. now rewrite E.
  - destruct (starts_with pat (c :: s)) eqn:E.
    + rewrite (replace_here _ _ _ E).
      rewrite (occurrences_skip _ _ _ Hout).
      rewrite (starts_with_inv _ _ E) at 2.
      destruct pat as [|p0 pat']; [congruence|].
      change ((p0 :: pat') ++ ?x) with (p0 :: (pat' ++ x)).
      cbn [occurrences].
      change (p0 :: (pat' ++ ?x)) with ((p0 :: pat') ++ x).
      rewrite starts_with_app. simpl pred.
      unfold unbordered in Hun. simpl tl in Hun.
      now rewrite (occurrences_skip _ _ _ Hun).
    + rewrite (replace_later _ _ _ _ E). cbn [occurrences].
      rewrite E, IH. simpl.
      destruct (starts_with pat (c :: replace pat rep s)) eqn:E'; [|reflexivity].
      rewrite <- (replace_later _ _ _ _ E) in E'.
      apply (starts_with_replace _ _ _ Hin) in E'. congruence.
Qed.

Lemma includes_occurrences (pat s : t) :
  includes pat s = false <-> occurrences pat s = 0.
Proof.
  unfold includes. induction s as [|c s IH].
  - simpl. destruct (starts_with pat []); split; intros H;
      first [discriminate H | reflexivity].
  - destruct (starts_with pat (c :: s)) eqn:E.
    + rewrite (indexOf_here _ _ E). cbn [occurrences]. rewrite E.
      split; intros H; discriminate H.
    + rewrite (indexOf_later _ _ _ E). cbn [occurrences]. rewrite E.
      simpl. destruct (indexOf pat s); simpl in *; exact IH.
Qed.

Lemma replace_length (pat rep s : t) :
  includes pat s = true ->
  List.length (replace pat rep s) + List.length pat
  = List.length s + List.length rep.
Proof.
  intros H. destruct (replace_first pat rep s H) as (pre & post & Hs & _ & ->).
  rewrite Hs at 1. rewrite !length_app. lia.
Qed.

Lemma ends_with_spec (suf s : t) :
  ends_with suf s = true <-> exists b, s = b ++ suf.
Proof.
  unfold ends_with. rewrite starts_with_spec. split.
  - intros [post H]. exists (rev post).
    apply (f_equal (@rev _)) in H.
    now rewrite rev_involutive, rev_app_distr, rev_involutive in H.
  - intros [b ->]. exists (rev b). apply rev_app_distr.
Qed.

End JsStringFacts.

(** * Properties of the regular expression matcher *)

Module RegexFacts.

Import JsString Regex.

(** A literal in front of an expression is read off the input. *)
Lemma match_here_literal (l : jsstring) (re : Regex.t) (s : jsstring) :
  match_here (literal l ++ re) s =
  if starts_with l s then match_here re (skipn (List.length l) s) else None.
Proof.
  revert s; induction l as [|x l IH]; intros s; [reflexivity|].
  destruct s as [|c s]; [reflexivity|].
  simpl. destruct (N.eqb x c); [apply IH|reflexivity].
Qed.

(** [c?$] matches the empty input and the input [c], nothing else. *)
Lemma match_here_opt_end (c : code_unit) (s rest : jsstring) :
  match_here [Opt c; End] s = Some rest <->
  (s = [] \/ s = [c]) /\ rest = [].
Proof.
  destruct s as [|c' [|c'' s]]; simpl.
  - split; [intros [= <-]; auto|intros [_ ->]; reflexivity].
  - destruct (N.eqb_spec c c') as [->|Hne].
    + split; [intros [= <-]; auto|intros [_ ->]; reflexivity].
    + split; [discriminate|]. intros [[H|H] _]; congruence.
  - destruct (N.eqb c c'); (split; [discriminate|]);
      intros [[H|H] _]; discriminate H.
Qed.

(** [lit c? $] matches exactly the inputs [lit] and [lit c], whole. *)
Lemma match_here_suffix (l : jsstring) (c : code_unit) (s rest : jsstring) :
  match_here (literal l ++ [Opt c; End]) s = Some rest <->
  (s = l \/ s = l ++ [c]) /\ rest = [].
Proof.
  rewrite match_here_literal.
  destruct (starts_with l s) eqn:E.
  - rewrite match_here_opt_end.
    apply JsStringFacts.starts_with_inv in E.
    split; intros [[H|H] ->]; (split; [|reflexivity]).
    + left. rewrite E, H. apply app_nil_r.
    + right. now rewrite E, H.
    + left. subst s. apply drop_all.
    + right. subst s. apply drop_app_length.
  - split; [discriminate|]. intros [[H|H] _]; subst s.
    + rewrite <- (app_nil_r l) in E at 2.
      rewrite JsStringFacts.starts_with_app in E. discriminate.
    + rewrite JsStringFacts.starts_with_app in E. discriminate.
Qed.

Lemma replace_match (re : Regex.t) (rep s rest : jsstring) :
  match_here re s = Some rest -> replace re rep s = rep ++ rest.
Proof. intros H. destruct s; simpl; now rewrite H. Qed.

Lemma replace_skip (re : Regex.t) (rep : jsstring) (c : code_unit)
      (s : jsstring) :
  match_here re (c :: s) = None ->
  replace re rep (c :: s) = c :: replace re rep s.
Proof. intros H. cbn [replace]. now rewrite H. Qed.

End RegexFacts.

(** * Properties of the two string transforms *)

Section Transforms.

Import JsString JsStringFacts.

Lemma chat_completions_apart : apart chat_completions invocations = true.
Proof. vm_compute. reflexivity. Qed.

Lemma chat_completions_unbordered : unbordered chat_completions = true.
Proof. vm_compute. reflexivity. Qed.

(** The guard of line 50 does not change what [replace] returns. *)
Lemma rewriteURL_replace (u : jsstring) :
  rewriteURL u = replace chat_completions invocations u.
Proof.
  unfold rewriteURL.
  destruct (includes chat_completions u) eqn:E; [reflexivity|].
  symmetry. now apply replace_absent.
Qed.

Lemma rewriteURL_present (u : jsstring) :
  (exists a b, u = a ++ chat_completions ++ b) ->
  exists pre post,
    u = pre ++ chat_completions ++ post /\
    (forall a b, u = a ++ chat_completions ++ b ->
                 List.length pre <= List.length a) /\
    rewriteURL u = pre ++ invocations ++ post.
Proof.
  intros H. apply includes_spec in H.
  unfold rewriteURL. rewrite H. now apply replace_first.
Qed.

Lemma rewriteURL_absent (u : jsstring) :
  (forall a b, u <> a ++ chat_completions ++ b) -> rewriteURL u = u.
Proof.
  intros H. unfold rewriteURL.
  destruct (includes chat_completions u) eqn:E; [|reflexivity].
  apply includes_spec in E as (a & b & E). now destruct (H a b).
Qed.

(** Each rewrite takes one occurrence of the pattern away. *)
Lemma occurrences_rewriteURL (u : jsstring) :
  occurrences chat_completions (rewriteURL u)
  = pred (occurrences chat_completions u).
Proof.
  rewrite rewriteURL_replace. apply occurrences_replace.
  - discriminate.
  - exact chat_completions_apart.
  - exact chat_completions_unbordered.
Qed.

Lemma rewriteURL_once (u : jsstring) :
  occurrences chat_completions u <= 1 ->
  rewriteURL (rewriteURL u) = rewriteURL u.
Proof.
  intros H. unfold rewriteURL at 1.
  assert (E : includes chat_completions (rewriteURL u) = false).
  { apply includes_occurrences. rewrite occurrences_rewriteURL. lia. }
  now rewrite E.
Qed.

(** With two occurrences or more, a second rewrite goes on. *)
Lemma rewriteURL_again (u : jsstring) :
  2 <= occurrences chat_completions u ->
  rewriteURL (rewriteURL u) <> rewriteURL u.
Proof.
  intros H Heq.
  assert (E : includes chat_completions (rewriteURL u) = true).
  { destruct (includes chat_completions (rewriteURL u)) eqn:E;
      [reflexivity|].
    apply includes_occurrences in E.
    rewrite occurrences_rewriteURL in E. lia. }
  pose proof (replace_length chat_completions invocations _ E) as Hlen.
  rewrite <- rewriteURL_replace, Heq in Hlen.
  vm_compute List.length in Hlen.
  change (List.length (rewriteURL u) + 17 = List.length (rewriteURL u) + 12)
    in Hlen.
  lia.
Qed.

(** Two strings of different lengths are different. *)
Ltac by_length E :=
  apply (f_equal (@List.length _)) in E;
  cbn [List.length app] in E;
  repeat rewrite length_app in E;
  change (List.length invocations) with 12 in E;
  change (List.length (lit "/")) with 1 in E;
  cbn [List.length] in E; lia.

Lemma match_trailing_invocations (s rest : jsstring) :
  Regex.match_here trailing_invocations s = Some rest <->
  (s = invocations \/ s = invocations ++ lit "/") /\ rest = [].
Proof. apply RegexFacts.match_here_suffix. Qed.

Lemma cleanBaseURL_invocations (b : jsstring) :
  cleanBaseURL (b ++ invocations) = b.
Proof.
  unfold cleanBaseURL. induction b as [|c b IH].
  - rewrite (RegexFacts.replace_match _ [] _ []); [reflexivity|].
    apply match_trailing_invocations. auto.
  - change ((c :: b) ++ invocations) with (c :: (b ++ invocations)).
    rewrite RegexFacts.replace_skip; [now rewrite IH|].
    destruct (Regex.match_here _ _) as [rest|] eqn:E; [|reflexivity].
    apply match_trailing_invocations in E as [[E|E] _]; exfalso.
    + by_length E.
    + destruct b as [|c' b].
      * vm_compute in E. discriminate E.
      * by_length E.
Qed.

Lemma cleanBaseURL_invocations_slash (b : jsstring) :
  cleanBaseURL (b ++ invocations ++ lit "/") = b.
Proof.
  unfold cleanBaseURL. induction b as [|c b IH].
  - rewrite (RegexFacts.replace_match _ [] _ []); [reflexivity|].
    apply match_trailing_invocations. auto.
  - change ((c :: b) ++ ?x) with (c :: (b ++ x)).
    rewrite RegexFacts.replace_skip; [now rewrite IH|].
    destruct (Regex.match_here _ _) as [rest|] eqn:E; [|reflexivity].
    apply match_trailing_invocations in E as [[E|E] _]; exfalso;
      by_length E.
Qed.

Lemma cleanBaseURL_other (s : jsstring) :
  (forall b, s <> b ++ invocations) ->
  (forall b, s <> b ++ invocations ++ lit "/") ->
  cleanBaseURL s = s.
Proof.
  unfold cleanBaseURL. induction s as [|c s IH]; intros H1 H2.
  - destruct (Regex.match_here trailing_invocations []) as [rest|] eqn:E.
    + apply match_trailing_invocations in E as [[E|E] _]; discriminate E.
    + cbn [Regex.replace]. now rewrite E.
  - destruct (Regex.match_here trailing_invocations (c :: s))
      as [rest|] eqn:E.
    + apply match_trailing_invocations in E as [[E|E] _]; exfalso.
      * now apply (H1 []).
      * now apply (H2 []).
    + rewrite (RegexFacts.replace_skip _ _ _ _ E). f_equal. apply IH.
      * intros b Hb. apply (H1 (c :: b)). now rewrite Hb.
      * intros b Hb. apply (H2 (c :: b)). now rewrite Hb.
Qed.

End Transforms.

(** * The claims about the module *)

Section Claims.

Import JsString JsStringFacts.

Context {RequestInit Response Reason Provider : Type}.

Variable network :
  list (@event RequestInit) -> jsstring -> option RequestInit ->
  @settled Reason Response.

Variable openAICompatible :
  OpenAICompatible.Settings (@FetchFunction RequestInit Response Reason) ->
  Provider.

Implicit Types (input : RequestInfo) (init : option RequestInit)
         (w : @World RequestInit) (config : DatabricksProviderConfig).

(** What the wrapper does, for every target, options and state: one
    call of the platform's [fetch], on the rewritten URL string and the
    options as given, and the outcome of that call as its own. *)
Lemma createDatabricksFetch_run input init w :
  createDatabricksFetch network tt input init w =
  (network (trace w) (rewriteURL (urlOf input)) init,
   {| env := env w;
      trace := trace w ++ [Fetch (rewriteURL (urlOf input)) init] |}).
Proof. reflexivity. Qed.

(** Of a [Request] object the wrapper reads the [url] and nothing
    else. *)
Lemma createDatabricksFetch_request (r r' : Request) init w :
  url r = url r' ->
  createDatabricksFetch network tt (OfRequest r) init w =
  createDatabricksFetch network tt (OfRequest r') init w.
Proof. intros H. rewrite !createDatabricksFetch_run. simpl. now rewrite H. Qed.

(** C1: when the URL string of the target contains [/chat/completions],
    the wrapper calls [fetch] on the string in which the first
    occurrence is exchanged for [/invocations] and everything before
    and behind it is kept. *)
Theorem rewrite_first_occurrence input init w :
  (exists a b, urlOf input = a ++ chat_completions ++ b) ->
  exists pre post,
    urlOf input = pre ++ chat_completions ++ post /\
    (forall a b, urlOf input = a ++ chat_completions ++ b ->
                 List.length pre <= List.length a) /\
    rewriteURL (urlOf input) = pre ++ invocations ++ post /\
    trace (snd (createDatabricksFetch network tt input init w))
    = trace w ++ [Fetch (pre ++ invocations ++ post) init].
Proof.
  intros H. destruct (rewriteURL_present _ H) as (pre & post & Hu & Hmin & Hr).
  exists pre, post. repeat split; try assumption.
  rewrite createDatabricksFetch_run. simpl. now rewrite Hr.
Qed.

(** C7: when the URL string of the target does not contain
    [/chat/completions], the wrapper calls [fetch] on that very
    string. *)
Theorem rewrite_absent_unchanged input init w :
  (forall a b, urlOf input <> a ++ chat_completions ++ b) ->
  rewriteURL (urlOf input) = urlOf input /\
  trace (snd (createDatabricksFetch network tt input init w))
  = trace w ++ [Fetch (urlOf input) init].
Proof.
  intros H. apply rewriteURL_absent in H. split; [exact H|].
  rewrite createDatabricksFetch_run. simpl. now rewrite H.
Qed.

(** For every target and every options, the wrapper issues exactly one
    call of the underlying [fetch]; its URL is the rewritten URL string
    of the target, its options are the second argument, untouched; the
    URL differs from the caller's at most by the exchanged substring;
    the environment is left alone. *)
Lemma fetch_once_options_untouched input init w :
  trace (snd (createDatabricksFetch network tt input init w))
  = trace w ++ [Fetch (rewriteURL (urlOf input)) init] /\
  env (snd (createDatabricksFetch network tt input init w)) = env w /\
  fst (createDatabricksFetch network tt input init w)
  = network (trace w) (rewriteURL (urlOf input)) init /\
  (rewriteURL (urlOf input) = urlOf input \/
   exists pre post,
     urlOf input = pre ++ chat_completions ++ post /\
     rewriteURL (urlOf input) = pre ++ invocations ++ post).
Proof.
  rewrite createDatabricksFetch_run. repeat split.
  destruct (includes chat_completions (urlOf input)) eqn:E.
  - right. apply includes_spec in E.
    destruct (rewriteURL_present _ E) as (pre & post & Hu & _ & Hr). eauto.
  - left. unfold rewriteURL. now rewrite E.
Qed.

(** C8: when the underlying [fetch] rejects, the promise of the wrapper
    rejects with the same reason, and the trace holds the one call that
    failed: nothing is retried, caught or put in its place. *)
Theorem fetch_rejection_propagates input init w (reason : Reason) :
  network (trace w) (rewriteURL (urlOf input)) init = Rejected reason ->
  fst (createDatabricksFetch network tt input init w) = Rejected reason /\
  trace (snd (createDatabricksFetch network tt input init w))
  = trace w ++ [Fetch (rewriteURL (urlOf input)) init].
Proof.
  intros H. rewrite createDatabricksFetch_run. simpl. now rewrite H.
Qed.

(** The provider factory, run: the one call of the external factory,
    on the settings of lines 84-90; no call of [fetch]. *)
Lemma createDatabricksProvider_run config w :
  createDatabricksProvider network openAICompatible config w =
  (Return (openAICompatible (providerSettings network config)),
   {| env := env w;
      trace := trace w ++
        [CreateOpenAICompatible
           (or_else (name config) databricks)
           (cleanBaseURL (baseURL config))
           (apiKey config)
           (headers config)] |}).
Proof. reflexivity. Qed.

(** C2: [createDatabricksProvider] hands the external factory the
    configured base URL without a trailing [/invocations] or
    [/invocations/], and a base URL that ends in neither as it is: that
    string is the base URL of the settings the provider is made from and
    of the one factory call in the trace. *)
Theorem baseURL_normalized config w :
  createDatabricksProvider network openAICompatible config w
  = (Return
       (openAICompatible
          {| OpenAICompatible.name := or_else (name config) databricks;
             OpenAICompatible.baseURL := cleanBaseURL (baseURL config);
             OpenAICompatible.apiKey := apiKey config;
             OpenAICompatible.headers := headers config;
             OpenAICompatible.fetch := createDatabricksFetch network tt |}),
     {| env := env w;
        trace := trace w ++
          [CreateOpenAICompatible (or_else (name config) databricks)
             (cleanBaseURL (baseURL config)) (apiKey config)
             (headers config)] |}) /\
  (forall b,
      baseURL config = b ++ invocations \/
      baseURL config = b ++ invocations ++ lit "/" ->
      trace (snd (createDatabricksProvider network openAICompatible
                    config w))
      = trace w ++
        [CreateOpenAICompatible (or_else (name config) databricks)
           b (apiKey config) (headers config)]) /\
  ((forall b, baseURL config <> b ++ invocations) ->
   (forall b, baseURL config <> b ++ invocations ++ lit "/") ->
   trace (snd (createDatabricksProvider network openAICompatible config w))
   = trace w ++
     [CreateOpenAICompatible (or_else (name config) databricks)
        (baseURL config) (apiKey config) (headers config)]) /\
  OpenAICompatible.baseURL (providerSettings network config)
  = cleanBaseURL (baseURL config) /\
  (forall b, cleanBaseURL (b ++ invocations) = b) /\
  (forall b, cleanBaseURL (b ++ invocations ++ lit "/") = b) /\
  (forall s,
      (forall b, s <> b ++ invocations) ->
      (forall b, s <> b ++ invocations ++ lit "/") ->
      cleanBaseURL s = s) /\
  cleanBaseURL (lit "https://host/serving-endpoints/m/invocations")
  = lit "https://host/serving-endpoints/m" /\
  cleanBaseURL (lit "https://host/serving-endpoints/m")
  = lit "https://host/serving-endpoints/m".
Proof.
  split; [reflexivity|].
  split.
  { intros b Hb. rewrite createDatabricksProvider_run. cbn [snd trace].
    destruct Hb as [-> | ->].
    - now rewrite cleanBaseURL_invocations.
    - now rewrite cleanBaseURL_invocations_slash. }
  split.
  { intros H1 H2. rewrite createDatabricksProvider_run. cbn [snd trace].
    now rewrite (cleanBaseURL_other _ H1 H2). }
  split; [reflexivity|].
  split; [exact cleanBaseURL_invocations|].
  split; [exact cleanBaseURL_invocations_slash|].
  split; [exact cleanBaseURL_other|].
  split; vm_compute; reflexivity.
Qed.

(** The environment-based factory, run: the two variables are read,
    and each is looked at before the provider factory is entered. *)
Lemma createDatabricksProviderFromEnv_run (name : option jsstring) w :
  createDatabricksProviderFromEnv network openAICompatible name w =
  match present (env w !! API_KEY_var) with
  | None => (Throw API_KEY_required, w)
  | Some key =>
      match present (env w !! BASE_URL_var) with
      | None => (Throw BASE_URL_required, w)
      | Some base =>
          createDatabricksProvider network openAICompatible
            {| baseURL := base; apiKey := key;
               headers := None; name := name |} w
      end
  end.
Proof.
  unfold createDatabricksProviderFromEnv, bind, getenv.
  destruct (present (env w !! API_KEY_var)); [|reflexivity].
  destruct (present (env w !! BASE_URL_var)); reflexivity.
Qed.

(** C5: without a non-empty [API_KEY] the environment-based factory
    throws an error whose message names [API_KEY]; with it but without a
    non-empty [BASE_URL] it throws one whose message names [BASE_URL];
    either way the state is as before: no call of [fetch], no call of
    the external factory. *)
Theorem fromEnv_missing_variable (name : option jsstring) w :
  (env w !! API_KEY_var = None \/ env w !! API_KEY_var = Some (lit "") ->
   createDatabricksProviderFromEnv network openAICompatible name w
   = (Throw API_KEY_required, w) /\
   includes API_KEY_var API_KEY_required = true) /\
  (forall key,
      env w !! API_KEY_var = Some key -> key <> lit "" ->
      env w !! BASE_URL_var = None \/
      env w !! BASE_URL_var = Some (lit "") ->
      createDatabricksProviderFromEnv network openAICompatible name w
      = (Throw BASE_URL_required, w) /\
      includes BASE_URL_var BASE_URL_required = true).
Proof.
  rewrite createDatabricksProviderFromEnv_run. split.
  - intros [H|H]; rewrite H; (split; [reflexivity|vm_compute; reflexivity]).
  - intros key Hk Hne [H|H]; rewrite Hk, H;
      (destruct key; [now destruct Hne|]);
      (split; [reflexivity|vm_compute; reflexivity]).
Qed.

(** C6: with both variables set to non-empty values, the
    environment-based factory does what the provider factory does on
    the configuration made of them: the same settings reach the
    external factory, the same provider comes back. *)
Theorem fromEnv_delegates (name : option jsstring) w (key base : jsstring) :
  env w !! API_KEY_var = Some key -> key <> lit "" ->
  env w !! BASE_URL_var = Some base -> base <> lit "" ->
  createDatabricksProviderFromEnv network openAICompatible name w
  = createDatabricksProvider network openAICompatible
      {| baseURL := base; apiKey := key; headers := None; name := name |} w
  /\
  createDatabricksProviderFromEnv network openAICompatible name w
  = (Return
       (openAICompatible
          {| OpenAICompatible.name := or_else name databricks;
             OpenAICompatible.baseURL := cleanBaseURL base;
             OpenAICompatible.apiKey := key;
             OpenAICompatible.headers := None;
             OpenAICompatible.fetch := createDatabricksFetch network tt |}),
     {| env := env w;
        trace := trace w ++
          [CreateOpenAICompatible (or_else name databricks)
             (cleanBaseURL base) key None] |}).
Proof.
  intros Hk Hkne Hb Hbne.
  rewrite createDatabricksProviderFromEnv_run, Hk, Hb.
  destruct key; [now destruct Hkne|]. destruct base; [now destruct Hbne|].
  split; reflexivity.
Qed.

(** C9: without a [name] in the configuration the external factory is
    given the name [databricks]; with a non-empty [name] it is given
    that name. *)
Theorem name_defaults_to_databricks config w :
  (name config = None ->
   OpenAICompatible.name (providerSettings network config) = databricks /\
   exists base key hdrs,
     trace (snd (createDatabricksProvider network openAICompatible config w))
     = trace w ++ [CreateOpenAICompatible databricks base key hdrs]) /\
  (forall s,
      name config = Some s -> s <> [] ->
      OpenAICompatible.name (providerSettings network config) = s /\
      exists base key hdrs,
        trace (snd (createDatabricksProvider network openAICompatible
                      config w))
        = trace w ++ [CreateOpenAICompatible s base key hdrs]).
Proof.
  rewrite createDatabricksProvider_run. simpl. split.
  - intros ->. eauto 6.
  - intros s -> Hs. destruct s; [congruence|]. simpl. eauto 6.
Qed.

(** C10: an empty [name] counts as no name: [createDatabricksProvider]
    gives the external factory the name [databricks], in the settings
    and in the one factory call of the trace, never the empty string;
    the run is the one of the configuration without a name. *)
Theorem empty_name_defaults config w :
  name config = Some [] ->
  createDatabricksProvider network openAICompatible config w
  = (Return
       (openAICompatible
          {| OpenAICompatible.name := databricks;
             OpenAICompatible.baseURL := cleanBaseURL (baseURL config);
             OpenAICompatible.apiKey := apiKey config;
             OpenAICompatible.headers := headers config;
             OpenAICompatible.fetch := createDatabricksFetch network tt |}),
     {| env := env w;
        trace := trace w ++
          [CreateOpenAICompatible databricks
             (cleanBaseURL (baseURL config)) (apiKey config)
             (headers config)] |}) /\
  (forall base key hdrs,
      trace (snd (createDatabricksProvider network openAICompatible
                    config w))
      <> trace w ++ [CreateOpenAICompatible [] base key hdrs]) /\
  OpenAICompatible.name (providerSettings network config) = databricks /\
  OpenAICompatible.name (providerSettings network config) <> [] /\
  createDatabricksProvider network openAICompatible config w
  = createDatabricksProvider network openAICompatible
      {| baseURL := baseURL config; apiKey := apiKey config;
         headers := headers config; name := None |} w.
Proof.
  intros H. rewrite !createDatabricksProvider_run.
  unfold providerSettings. cbn [snd trace name baseURL apiKey headers
    OpenAICompatible.name].
  rewrite H. cbn [or_else truthy].
  split; [reflexivity|]. split.
  { intros base key hdrs Heq. apply app_inv_head in Heq.
    injection Heq as Hname _ _ _. discriminate Hname. }
  split; [reflexivity|]. split; [discriminate|reflexivity].
Qed.

End Claims.

(** * The rewrite and repeated application *)

Section Idempotence.

Import JsString.

(** C3, as far as it holds: on a URL string in which
    [/chat/completions] occurs at most once, rewriting twice gives what
    rewriting once gives. *)
Theorem rewrite_idempotent_single (u : jsstring) :
  occurrences chat_completions u <= 1 ->
  rewriteURL (rewriteURL u) = rewriteURL u.
Proof. apply rewriteURL_once. Qed.

(** C3 fails as stated: with two occurrences the first rewrite leaves one
    behind, which the second rewrite takes. *)
Lemma rewrite_twice_differs :
  rewriteURL
    (rewriteURL (lit "https://host/chat/completions/chat/completions"))
  <> rewriteURL (lit "https://host/chat/completions/chat/completions").
Proof. vm_compute. discriminate. Qed.

Example rewrite_two_occurrences_once :
  rewriteURL (lit "https://host/chat/completions/chat/completions")
  = lit "https://host/invocations/chat/completions".
Proof. vm_compute. reflexivity. Qed.

Example rewrite_two_occurrences_twice :
  rewriteURL
    (rewriteURL (lit "https://host/chat/completions/chat/completions"))
  = lit "https://host/invocations/invocations".
Proof. vm_compute. reflexivity. Qed.

End Idempotence.

(** * The statements at the concrete instance *)

Section Instances.

Import JsString Sample.

Lemma rewrite_first_occurrence_witness :
  exists pre post,
    endpoint ++ chat_completions = pre ++ chat_completions ++ post /\
    (forall a b, endpoint ++ chat_completions = a ++ chat_completions ++ b ->
                 List.length pre <= List.length a) /\
    rewriteURL (endpoint ++ chat_completions) = pre ++ invocations ++ post /\
    trace (snd (createDatabricksFetch network tt
                  (OfString (endpoint ++ chat_completions)) options bare))
    = [Fetch (pre ++ invocations ++ post) options].
Proof.
  apply (rewrite_first_occurrence network
           (OfString (endpoint ++ chat_completions)) options bare).
  exists endpoint, []. reflexivity.
Defined.

Lemma rewrite_absent_unchanged_witness :
  rewriteURL (endpoint ++ invocations) = endpoint ++ invocations /\
  trace (snd (createDatabricksFetch network tt
                (OfURL {| href := endpoint ++ invocations |}) options bare))
  = [Fetch (endpoint ++ invocations) options].
Proof.
  apply (rewrite_absent_unchanged network
           (OfURL {| href := endpoint ++ invocations |}) options bare).
  intros a b H.
  assert (E : includes chat_completions (endpoint ++ invocations) = true)
    by (apply JsStringFacts.includes_spec; eauto).
  vm_compute in E. discriminate E.
Defined.

(** C4, at a [Request] target: the call that goes out carries the
    rewritten URL and the second argument, here [undefined]; the
    method, the header and the body the caller put into the [Request]
    are not in it, and the call is the one a bare GET [Request] to the
    same URL gives. *)
Theorem request_fields_dropped :
  method chat_request = lit "POST" /\
  body chat_request = Some (lit "{}") /\
  createDatabricksFetch network tt (OfRequest chat_request) None bare
  = (Fulfilled 200,
     {| env := ∅; trace := [Fetch (endpoint ++ invocations) None] |}) /\
  createDatabricksFetch network tt (OfRequest chat_request) None bare
  = createDatabricksFetch network tt (OfRequest plain_request) None bare.
Proof.
  split; [reflexivity|]. split; [reflexivity|].
  split; [|reflexivity].
  rewrite createDatabricksFetch_run. vm_compute. reflexivity.
Qed.

Lemma fetch_rejection_propagates_witness :
  fst (createDatabricksFetch network tt
         (OfString (lit "https://down/chat/completions")) options bare)
  = Rejected (lit "ECONNREFUSED") /\
  trace (snd (createDatabricksFetch network tt
                (OfString (lit "https://down/chat/completions")) options bare))
  = [Fetch (lit "https://down/invocations") options].
Proof.
  apply (fetch_rejection_propagates network
           (OfString (lit "https://down/chat/completions")) options bare
           (lit "ECONNREFUSED")).
  vm_compute. reflexivity.
Defined.

Lemma rewrite_idempotent_single_witness :
  occurrences chat_completions (endpoint ++ chat_completions) <= 1 /\
  rewriteURL (rewriteURL (endpoint ++ chat_completions))
  = rewriteURL (endpoint ++ chat_completions).
Proof.
  assert (H : occurrences chat_completions (endpoint ++ chat_completions)
              <= 1) by (vm_compute; lia).
  split; [exact H|].
  apply (rewrite_idempotent_single (endpoint ++ chat_completions) H).
Defined.

Lemma baseURL_normalized_witness :
  trace (snd (createDatabricksProvider network openAICompatible
                {| baseURL := endpoint ++ invocations ++ lit "/";
                   apiKey := lit "dapi-0123"; headers := None;
                   name := None |} bare))
  = [CreateOpenAICompatible databricks endpoint (lit "dapi-0123") None] /\
  trace (snd (createDatabricksProvider network openAICompatible
                {| baseURL := lit "https://host/invocations/v2";
                   apiKey := lit "dapi-0123"; headers := None;
                   name := None |} bare))
  = [CreateOpenAICompatible databricks (lit "https://host/invocations/v2")
       (lit "dapi-0123") None].
Proof.
  split.
  - destruct (baseURL_normalized network openAICompatible
                {| baseURL := endpoint ++ invocations ++ lit "/";
                   apiKey := lit "dapi-0123"; headers := None;
                   name := None |} bare)
      as (_ & Hstrip & _).
    apply (Hstrip endpoint). right. reflexivity.
  - destruct (baseURL_normalized network openAICompatible
                {| baseURL := lit "https://host/invocations/v2";
                   apiKey := lit "dapi-0123"; headers := None;
                   name := None |} bare)
      as (_ & _ & Hother & _).
    apply Hother.
    + intros b H.
      assert (E : ends_with invocations (lit "https://host/invocations/v2")
                  = true)
        by (apply JsStringFacts.ends_with_spec; eauto).
      vm_compute in E. discriminate E.
    + intros b H.
      assert (E : ends_with (invocations ++ lit "/")
                    (lit "https://host/invocations/v2") = true)
        by (apply JsStringFacts.ends_with_spec; eauto).
      vm_compute in E. discriminate E.
Defined.

Lemma fromEnv_missing_variable_witness :
  createDatabricksProviderFromEnv network openAICompatible None bare
  = (Throw API_KEY_required, bare) /\
  createDatabricksProviderFromEnv network openAICompatible None keyed
  = (Throw BASE_URL_required, keyed).
Proof.
  split.
  - destruct (fromEnv_missing_variable network openAICompatible None bare)
      as [Hkey _].
    apply Hkey. left. reflexivity.
  - destruct (fromEnv_missing_variable network openAICompatible None keyed)
      as [_ Hbase].
    apply (Hbase (lit "dapi-0123")).
    + vm_compute. reflexivity.
    + discriminate.
    + left. vm_compute. reflexivity.
Defined.

Lemma fromEnv_delegates_witness :
  createDatabricksProviderFromEnv network openAICompatible None configured
  = createDatabricksProvider network openAICompatible
      {| baseURL := endpoint ++ invocations; apiKey := lit "dapi-0123";
         headers := None; name := None |} configured.
Proof.
  apply (fromEnv_delegates network openAICompatible None configured
           (lit "dapi-0123") (endpoint ++ invocations)).
  - vm_compute. reflexivity.
  - discriminate.
  - vm_compute. reflexivity.
  - discriminate.
Defined.

Lemma name_defaults_to_databricks_witness :
  OpenAICompatible.name (providerSettings network (config None))
  = databricks /\
  OpenAICompatible.name
    (providerSettings network (config (Some (lit "llama"))))
  = lit "llama".
Proof.
  split.
  - destruct (name_defaults_to_databricks network openAICompatible
                (config None) bare) as [Hunset _].
    apply Hunset. reflexivity.
  - destruct (name_defaults_to_databricks network openAICompatible
                (config (Some (lit "llama"))) bare) as [_ Hset].
    apply (Hset (lit "llama")).
    + reflexivity.
    + discriminate.
Defined.

Lemma empty_name_defaults_witness :
  trace (snd (createDatabricksProvider network openAICompatible
                (config (Some [])) bare))
  = [CreateOpenAICompatible databricks endpoint (lit "dapi-0123") None].
Proof.
  destruct (empty_name_defaults network openAICompatible
              (config (Some [])) bare eq_refl) as (Hrun & _).
  rewrite Hrun. vm_compute. reflexivity.
Defined.

End Instances.

(** * Replacement and concatenation *)

Module JsStringAppend.

Import JsString JsStringFacts.

Lemma starts_with_app_l (pat a b : t) :
  starts_with pat a = true -> starts_with pat (a ++ b) = true.
Proof.
  intros H. rewrite (starts_with_inv _ _ H), <- app_assoc.
  apply starts_with_app.
Qed.

(** Where [a] is long enough to hold the pattern, what follows [a] has
    no say in whether the pattern is at its front. *)
Lemma starts_with_app_long (pat a b : t) :
  List.length pat <= List.length a ->
  starts_with pat (a ++ b) = starts_with pat a.
Proof.
  revert a; induction pat as [|p pat IH]; intros [|c a] H; simpl in *;
    try reflexivity; try lia.
  rewrite IH by lia. reflexivity.
Qed.

Lemma indexOf_length (pat s : t) (pos : nat) :
  indexOf pat s = Some pos -> pos + List.length pat <= List.length s.
Proof.
  intros H. destruct (indexOf_Some _ _ _ H) as (Hs & Hlen & _).
  apply (f_equal (@List.length _)) in Hs.
  rewrite !length_app, Hlen in Hs. lia.
Qed.

(** The first occurrence in [a] is the first occurrence in [a ++ b]. *)
Lemma indexOf_app_l (pat a b : t) (pos : nat) :
  indexOf pat a = Some pos -> indexOf pat (a ++ b) = Some pos.
Proof.
  revert pos; induction a as [|c a IH]; intros pos H.
  - simpl in H. destruct (starts_with pat []) eqn:E; [|discriminate].
    injection H as <-. apply indexOf_here. now apply starts_with_app_l.
  - destruct (starts_with pat (c :: a)) eqn:E.
    + rewrite (indexOf_here _ _ E) in H. injection H as <-.
      apply indexOf_here. now apply starts_with_app_l.
    + rewrite (indexOf_later _ _ _ E) in H.
      destruct (indexOf pat a) as [pos'|] eqn:E'; [|discriminate].
      injection H as <-.
      change ((c :: a) ++ b) with (c :: (a ++ b)).
      rewrite indexOf_later.
      * now rewrite (IH pos' eq_refl).
      * change (c :: (a ++ b)) with ((c :: a) ++ b).
        rewrite starts_with_app_long; [exact E|].
        apply indexOf_length in E'. simpl. lia.
Qed.

(** A pattern found in [a] is replaced there; what is appended to [a]
    is carried over as it is. *)
Lemma replace_app_l (pat rep a b : t) :
  includes pat a = true ->
  replace pat rep (a ++ b) = replace pat rep a ++ b.
Proof.
  unfold includes, replace.
  destruct (indexOf pat a) as [pos|] eqn:E; [intros _|discriminate].
  rewrite (indexOf_app_l _ _ b _ E).
  pose proof (indexOf_length _ _ _ E) as Hlen.
  rewrite take_app_le by lia. rewrite drop_app_le by lia.
  now rewrite <- !app_assoc.
Qed.

Lemma mismatch_sym (q r : t) : mismatch q r = mismatch r q.
Proof.
  revert r; induction q as [|x q IH]; intros [|y r]; simpl;
    try reflexivity.
  now rewrite IH, N.eqb_sym.
Qed.

(** A string none of whose non-empty suffixes can run into [pat] is at
    the front of [a ++ pat ++ rest] only if it is at the front of
    [a]. *)
Lemma starts_with_before (pat p : t) :
  forallb (fun q => mismatch pat q) (tails p) = true ->
  forall a rest,
    starts_with p a = false -> starts_with p (a ++ pat ++ rest) = false.
Proof.
  induction p as [|x p IH]; [discriminate|].
  intros Hp a rest. cbn [tails forallb] in Hp.
  apply andb_true_iff in Hp as [Hx Hp].
  destruct a as [|c a].
  - intros _. rewrite mismatch_sym in Hx.
    change ([] ++ pat ++ rest) with (pat ++ rest).
    now apply mismatch_starts_with.
  - simpl. destruct (N.eqb x c); simpl; [now apply IH|reflexivity].
Qed.

(** Behind a string that does not hold the pattern, the pattern is
    found where it was put. *)
Lemma replace_app_absent (pat rep a rest : t) :
  pat <> [] -> unbordered pat = true ->
  includes pat a = false ->
  replace pat rep (a ++ pat ++ rest) = a ++ rep ++ rest.
Proof.
  intros Hne Hun. unfold unbordered in Hun.
  destruct pat as [|x pat]; [congruence|]. simpl tl in Hun.
  induction a as [|c a IH]; intros Ha.
  - change ([] ++ ?r) with r.
    rewrite replace_here by apply starts_with_app.
    now rewrite drop_app_length.
  - unfold includes in Ha.
    destruct (starts_with (x :: pat) (c :: a)) eqn:E.
    + rewrite (indexOf_here _ _ E) in Ha. discriminate.
    + rewrite (indexOf_later _ _ _ E) in Ha.
      change ((c :: a) ++ ?r) with (c :: (a ++ r)).
      rewrite replace_later.
      * rewrite IH; [reflexivity|].
        unfold includes. now destruct (indexOf (x :: pat) a).
      * cbn [starts_with] in E |- *.
        destruct (N.eqb x c); cbn [andb] in *; [|reflexivity].
        exact (starts_with_before (x :: pat) pat Hun a rest E).
Qed.

End JsStringAppend.

(** * Further properties of the two transforms *)

Section MoreTransforms.

Import JsString JsStringFacts JsStringAppend.

Lemma rewriteURL_app_present (base tail : jsstring) :
  (exists a b, base = a ++ chat_completions ++ b) ->
  rewriteURL (base ++ tail) = rewriteURL base ++ tail.
Proof.
  intros H. apply includes_spec in H.
  rewrite !rewriteURL_replace. now apply replace_app_l.
Qed.

Lemma rewriteURL_app_absent (base rest : jsstring) :
  (forall a b, base <> a ++ chat_completions ++ b) ->
  rewriteURL (base ++ chat_completions ++ rest) = base ++ invocations ++ rest.
Proof.
  intros H. rewrite rewriteURL_replace. apply replace_app_absent.
  - discriminate.
  - exact chat_completions_unbordered.
  - destruct (includes chat_completions base) eqn:E; [|reflexivity].
    apply includes_spec in E as (a & b & E). now destruct (H a b).
Qed.

(** X1: a rewrite takes exactly one occurrence of [/chat/completions]
    out of the URL string (none when there is none). *)
Theorem rewrite_removes_one_occurrence (u : jsstring) :
  occurrences chat_completions (rewriteURL u)
  = pred (occurrences chat_completions u).
Proof. apply occurrences_rewriteURL. Qed.

(** X2: on a URL string with two or more occurrences of
    [/chat/completions], rewriting the rewritten string changes it
    again. *)
Theorem second_rewrite_changes (u : jsstring) :
  2 <= occurrences chat_completions u ->
  rewriteURL (rewriteURL u) <> rewriteURL u.
Proof. apply rewriteURL_again. Qed.

(** X3: a rewrite that finds [/chat/completions] makes the URL string
    five code units shorter. *)
Theorem rewrite_shortens_by_five (u : jsstring) :
  (exists a b, u = a ++ chat_completions ++ b) ->
  List.length (rewriteURL u) + 5 = List.length u.
Proof.
  intros H. apply includes_spec in H.
  pose proof (replace_length chat_completions invocations u H) as Hlen.
  rewrite <- rewriteURL_replace in Hlen.
  change (List.length chat_completions) with 17 in Hlen.
  change (List.length invocations) with 12 in Hlen.
  lia.
Qed.

(** X7: the clean-up of the base URL only ever takes a suffix away, and
    that suffix is empty, [/invocations] or [/invocations/]. *)
Theorem cleanBaseURL_removes_suffix_only (s : jsstring) :
  exists suffix,
    s = cleanBaseURL s ++ suffix /\
    (suffix = [] \/ suffix = invocations \/
     suffix = invocations ++ lit "/").
Proof.
  destruct (ends_with invocations s) eqn:E1.
  - apply ends_with_spec in E1 as [b ->].
    exists invocations. rewrite cleanBaseURL_invocations. auto.
  - destruct (ends_with (invocations ++ lit "/") s) eqn:E2.
    + apply ends_with_spec in E2 as [b ->].
      exists (invocations ++ lit "/").
      rewrite cleanBaseURL_invocations_slash. auto.
    + exists []. rewrite cleanBaseURL_other.
      * rewrite app_nil_r. auto.
      * intros b Hb. assert (ends_with invocations s = true)
          by (apply ends_with_spec; eauto). congruence.
      * intros b Hb. assert (ends_with (invocations ++ lit "/") s = true)
          by (apply ends_with_spec; eauto). congruence.
Qed.

End MoreTransforms.

(** * Further properties of the module *)

Section MoreProgram.

Import JsString JsStringFacts.

Context {RequestInit Response Reason Provider : Type}.

Variable network :
  list (@event RequestInit) -> jsstring -> option RequestInit ->
  @settled Reason Response.

Variable openAICompatible :
  OpenAICompatible.Settings (@FetchFunction RequestInit Response Reason) ->
  Provider.

Implicit Types (init : option RequestInit) (w : @World RequestInit)
         (config : DatabricksProviderConfig).

(** X4: when the front part of a URL string already holds
    [/chat/completions], the rewrite is spent there: whatever is
    appended, an endpoint path [/chat/completions] included, reaches
    [fetch] as it is. *)
Theorem pattern_in_base_shadows_path (base tail : jsstring) init w :
  (exists a b, base = a ++ chat_completions ++ b) ->
  rewriteURL (base ++ tail) = rewriteURL base ++ tail /\
  trace (snd (createDatabricksFetch network tt
                (OfString (base ++ tail)) init w))
  = trace w ++ [Fetch (rewriteURL base ++ tail) init].
Proof.
  intros H. apply (rewriteURL_app_present base tail) in H.
  split; [exact H|].
  rewrite createDatabricksFetch_run. cbn [urlOf snd trace]. now rewrite H.
Qed.

(** X5: when the base does not hold [/chat/completions], a request for
    the base followed by [/chat/completions] and anything else goes out
    to the base followed by [/invocations] and the same rest. *)
Theorem appended_path_rewritten (base rest : jsstring) init w :
  (forall a b, base <> a ++ chat_completions ++ b) ->
  createDatabricksFetch network tt
    (OfString (base ++ chat_completions ++ rest)) init w
  = (network (trace w) (base ++ invocations ++ rest) init,
     {| env := env w;
        trace := trace w ++ [Fetch (base ++ invocations ++ rest) init] |}).
Proof.
  intros H. apply (rewriteURL_app_absent base rest) in H.
  rewrite createDatabricksFetch_run. cbn [urlOf snd trace]. now rewrite H.
Qed.

(** X6: a base URL configured with a trailing [/invocations] or
    [/invocations/] does not lead to a doubled segment: a request that
    the transport of the provider receives for the base URL of the
    settings followed by [/chat/completions] goes out to the root
    followed by one [/invocations]. *)
Theorem trailing_invocations_not_duplicated
        config (root rest : jsstring) init w :
  (forall a b, root <> a ++ chat_completions ++ b) ->
  baseURL config = root ++ invocations \/
  baseURL config = root ++ invocations ++ lit "/" ->
  OpenAICompatible.baseURL (providerSettings network config) = root /\
  OpenAICompatible.fetch (providerSettings network config)
    (OfString
       (OpenAICompatible.baseURL (providerSettings network config)
          ++ chat_completions ++ rest)) init w
  = (network (trace w) (root ++ invocations ++ rest) init,
     {| env := env w;
        trace := trace w ++ [Fetch (root ++ invocations ++ rest) init] |}).
Proof.
  intros Hroot Hbase.
  assert (Hclean : cleanBaseURL (baseURL config) = root).
  { destruct Hbase as [-> | ->].
    - apply cleanBaseURL_invocations.
    - apply cleanBaseURL_invocations_slash. }
  unfold providerSettings.
  cbn [OpenAICompatible.baseURL OpenAICompatible.fetch]. rewrite Hclean.
  split; [reflexivity|].
  apply (rewriteURL_app_absent root rest) in Hroot.
  rewrite createDatabricksFetch_run. cbn [urlOf]. now rewrite Hroot.
Qed.

(** X8: in every environment the environment-based factory leaves the
    environment as it is and calls [fetch] not once: the trace is
    unchanged or longer by the one call of the external factory. It
    returns a provider exactly when both variables hold a non-empty
    string. *)
Theorem fromEnv_outcome (name : option jsstring) w :
  let run := createDatabricksProviderFromEnv network openAICompatible
               name w in
  env (snd run) = env w /\
  (trace (snd run) = trace w \/
   exists n b k h,
     trace (snd run) = trace w ++ [CreateOpenAICompatible n b k h]) /\
  ((exists provider, fst run = Return provider) <->
   (exists key base,
       env w !! API_KEY_var = Some key /\ key <> lit "" /\
       env w !! BASE_URL_var = Some base /\ base <> lit "")).
Proof.
  cbv zeta. rewrite createDatabricksProviderFromEnv_run.
  destruct (env w !! API_KEY_var) as [[|k0 key]|] eqn:Ek; cbn [present truthy].
  - split; [reflexivity|]. split; [now left|].
    split; [intros [p Hp]; discriminate Hp|].
    intros (key & base & [= <-] & Hne & _). now destruct Hne.
  - destruct (env w !! BASE_URL_var) as [[|b0 base]|] eqn:Eb;
      cbn [present truthy].
    + split; [reflexivity|]. split; [now left|].
      split; [intros [p Hp]; discriminate Hp|].
      intros (key' & base & _ & _ & [= <-] & Hne). now destruct Hne.
    + rewrite createDatabricksProvider_run. cbn [fst snd env trace].
      split; [reflexivity|]. split; [right; eauto|].
      split; [intros _|eauto].
      exists (k0 :: key), (b0 :: base). repeat split; discriminate.
    + split; [reflexivity|]. split; [now left|].
      split; [intros [p Hp]; discriminate Hp|].
      intros (key' & base & _ & _ & [=] & _).
  - split; [reflexivity|]. split; [now left|].
    split; [intros [p Hp]; discriminate Hp|].
    intros (key & base & [=] & _).
Qed.

End MoreProgram.

(** * The further statements at the concrete instance *)

Section MoreInstances.

Import JsString Sample.

Lemma second_rewrite_changes_witness :
  2 <= occurrences chat_completions
         (endpoint ++ chat_completions ++ chat_completions) /\
  rewriteURL (rewriteURL (endpoint ++ chat_completions ++ chat_completions))
  <> rewriteURL (endpoint ++ chat_completions ++ chat_completions).
Proof.
  assert (H : 2 <= occurrences chat_completions
                     (endpoint ++ chat_completions ++ chat_completions))
    by (vm_compute; lia).
  split; [exact H|].
  apply (second_rewrite_changes
           (endpoint ++ chat_completions ++ chat_completions) H).
Defined.

Lemma rewrite_shortens_by_five_witness :
  List.length (rewriteURL (endpoint ++ chat_completions ++ lit "?v=1")) + 5
  = List.length (endpoint ++ chat_completions ++ lit "?v=1").
Proof.
  apply (rewrite_shortens_by_five
           (endpoint ++ chat_completions ++ lit "?v=1")).
  exists endpoint, (lit "?v=1"). reflexivity.
Defined.

Lemma pattern_in_base_shadows_path_witness :
  trace (snd (createDatabricksFetch network tt
                (OfString ((endpoint ++ chat_completions ++ lit "/v1")
                             ++ chat_completions)) options bare))
  = [Fetch (rewriteURL (endpoint ++ chat_completions ++ lit "/v1")
              ++ chat_completions) options].
Proof.
  apply (pattern_in_base_shadows_path network
           (endpoint ++ chat_completions ++ lit "/v1") chat_completions
           options bare).
  exists endpoint, (lit "/v1"). reflexivity.
Defined.

Lemma appended_path_rewritten_witness :
  createDatabricksFetch network tt
    (OfString (endpoint ++ chat_completions ++ lit "?v=1")) options bare
  = (network [] (endpoint ++ invocations ++ lit "?v=1") options,
     {| env := ∅;
        trace := [Fetch (endpoint ++ invocations ++ lit "?v=1") options] |}).
Proof.
  apply (appended_path_rewritten network endpoint (lit "?v=1") options bare).
  intros a b H.
  assert (E : includes chat_completions endpoint = true)
    by (apply JsStringFacts.includes_spec; eauto).
  vm_compute in E. discriminate E.
Defined.

Lemma trailing_invocations_not_duplicated_witness :
  OpenAICompatible.baseURL
    (providerSettings network
       {| baseURL := endpoint ++ invocations ++ lit "/";
          apiKey := lit "dapi-0123"; headers := None; name := None |})
  = endpoint.
Proof.
  apply (trailing_invocations_not_duplicated network
           {| baseURL := endpoint ++ invocations ++ lit "/";
              apiKey := lit "dapi-0123"; headers := None; name := None |}
           endpoint [] options bare).
  - intros a b H.
    assert (E : includes chat_completions endpoint = true)
      by (apply JsStringFacts.includes_spec; eauto).
    vm_compute in E. discriminate E.
  - right. reflexivity.
Defined.

Lemma fromEnv_outcome_witness :
  exists provider,
    fst (createDatabricksProviderFromEnv network openAICompatible
           None configured) = Return provider.
Proof.
  destruct (fromEnv_outcome network openAICompatible None configured)
    as (_ & _ & Hiff).
  apply Hiff. exists (lit "dapi-0123"), (endpoint ++ invocations).
  split; [vm_compute; reflexivity|]. split; [discriminate|].
  split; [vm_compute; reflexivity|discriminate].
Defined.

End MoreInstances.
